(** * predicateeditor: the query reducer of [src/app.tsx]

    A shallow embedding of the state-transition core of the predicate
    editor ([methodReducer], [queryReducer] and the constant tables they
    read), of [queryDispatchNth] and of the components that dispatch to the
    reducer, followed by the properties of the reducer and of the editor.

    Conventions of the embedding.
    - A TypeScript string-literal union is an inductive type whose
      constructors are the literals, capitalised.
    - [readonly Predicate[]] is [list Predicate]; an index is a [Z], since the
      action types declare [index: number] and the reducer does not check it.
      On integer-valued numbers the arithmetic of the reducer ([i + 1]) only
      feeds [slice], which clamps to the array length, so exact integers give
      the same arrays as doubles.
    - A call either returns a value or throws: [Completion]. *)

From stdpp Require Import base numbers list strings pretty.

Local Open Scope Z_scope.

(** ** Data model *)

(** [type QueryType = "all" | "any"] *)
Inductive QueryType := All | Any.
Definition initQueryType : QueryType := All.

(** [type Field = "title" | "body"] *)
Inductive Field := Title | Body.
Definition initField : Field := Title.

(** [Method["type"]], that is ["equal" | "match"] *)
Inductive MethodType := Equal | Match.

(** [type Method]: both variants carry one string, [value]. *)
Record Method := mkMethod { method_type : MethodType; value : string }.

Global Instance QueryType_eq_dec : EqDecision QueryType.
Proof. solve_decision. Defined.
Global Instance Field_eq_dec : EqDecision Field.
Proof. solve_decision. Defined.
Global Instance MethodType_eq_dec : EqDecision MethodType.
Proof. solve_decision. Defined.
Global Instance Method_eq_dec : EqDecision Method.
Proof. solve_decision. Defined.

Definition allowedMethods (f : Field) : list MethodType :=
  match f with
  | Title => [Equal]
  | Body => [Equal; Match]
  end.

Definition initMethods (t : MethodType) : Method :=
  match t with
  | Equal => {| method_type := Equal; value := "" |}
  | Match => {| method_type := Match; value := "" |}
  end.

Definition initPredicateMethod : Method := initMethods Equal.

(** [Predicate["type"]], that is ["field" | "query"] *)
Inductive PredicateType := FieldT | QueryT.

Global Instance PredicateType_eq_dec : EqDecision PredicateType.
Proof. solve_decision. Defined.

(** [type Predicate = FieldPredicate | QueryPredicate] and [type Query] *)
Inductive Predicate :=
| FieldPredicate (field : Field) (method : Method)
| QueryPredicate (query : Query)
with Query :=
| mkQuery (type : QueryType) (predicates : list Predicate).

Definition query_type (q : Query) : QueryType :=
  match q with mkQuery t _ => t end.
Definition predicates (q : Query) : list Predicate :=
  match q with mkQuery _ ps => ps end.

(** The [type] tag of a predicate. *)
Definition predicate_type (p : Predicate) : PredicateType :=
  match p with
  | FieldPredicate _ _ => FieldT
  | QueryPredicate _ => QueryT
  end.

Definition initFieldPredicate : Predicate :=
  FieldPredicate initField initPredicateMethod.
Definition initQuery : Query := mkQuery initQueryType [].
Definition initQueryPredicate : Predicate := QueryPredicate initQuery.

(** ** Actions *)

Inductive MethodAction :=
| MethodUpdateType (methodType : MethodType)
| UpdateTextValue (value : string).

Inductive QueryAction :=
| UpdateType (queryType : QueryType)
| InsertFirst (predicateType : PredicateType)
| InsertAfterNth (predicateType : PredicateType) (index : Z)
| RemoveNth (index : Z)
| UpdateNthQuery (index : Z) (action : QueryAction)
| UpdateNthField (index : Z) (field : Field)
| UpdateNthMethod (index : Z) (action : MethodAction).

(** ** What a call does: return or throw *)

(** The two exceptions the reducer can raise: the [TypeError] of the
    runtime when [.type] is read from [undefined], and the [Error] objects
    the reducer constructs itself, with their message. *)
Inductive Exn :=
| TypeError
| Error (message : string).

Inductive Completion (A : Type) :=
| Return (a : A)
| Throw (e : Exn).
Arguments Return {A} a.
Arguments Throw {A} e.

Global Instance Completion_bind : MBind Completion := λ A B k c,
  match c with
  | Return a => k a
  | Throw e => Throw e
  end.

(** ** JavaScript arrays *)

Module JsArray.
Section ops.
Context {A : Type}.

(** [arr[i]] for an integer [i]: [None] stands for [undefined]. *)
Definition get (arr : list A) (i : Z) : option A :=
  if decide (0 ≤ i) then arr !! Z.to_nat i else None.

(** The clamping of a relative index that [Array.prototype.slice] applies to
    both of its arguments. *)
Definition relative (len i : Z) : Z :=
  if decide (i < 0) then Z.max (len + i) 0 else Z.min i len.

(** [arr.slice(start, end)] *)
Definition slice (arr : list A) (start end_ : Z) : list A :=
  let len := Z.of_nat (length arr) in
  let k := relative len start in
  let final := relative len end_ in
  take (Z.to_nat (final - k)) (drop (Z.to_nat k) arr).

(** [arr.slice(start)] *)
Definition sliceFrom (arr : list A) (start : Z) : list A :=
  slice arr start (Z.of_nat (length arr)).

(** [arr[i] = x] on a copy of the array, for an index that holds an
    element. The reducer only assigns after it has read a defined
    [arr[i]]. *)
Definition set (arr : list A) (i : Z) (x : A) : list A :=
  <[Z.to_nat i := x]> arr.

(** [arr.includes(x)] *)
Definition includes `{EqDecision A} (arr : list A) (x : A) : bool :=
  bool_decide (x ∈ arr).

(** [arr.map((x, i) => f(x, i))] *)
Definition map {B : Type} (f : A → Z → B) (arr : list A) : list B :=
  (fix from (i : nat) (rest : list A) : list B :=
     match rest with
     | [] => []
     | x :: rest' => f x (Z.of_nat i) :: from (S i) rest'
     end) 0%nat arr.
End ops.
Global Arguments get : simpl never.
Global Arguments slice : simpl never.
Global Arguments sliceFrom : simpl never.
Global Arguments set : simpl never.
Global Arguments includes : simpl never.
End JsArray.

(** ** The reducers *)

Definition methodReducer (method : Method) (action : MethodAction) : Method :=
  match action with
  | MethodUpdateType methodType => initMethods methodType
  | UpdateTextValue v =>
      match method_type method with
      | Equal | Match => {| method_type := method_type method; value := v |}
      end
  end.

(** The message of the error thrown when the [n]th predicate is not a
    query, and when it is not a field predicate. *)
Definition notAQuery (index : Z) : Exn :=
  Error (pretty index +:+ "th predicate is not a query").
Definition notAField (index : Z) : Exn :=
  Error (pretty index +:+ "th predicate is not a field type").

(** [initMethods[allowedMethods[field][0]]]. Every row of [allowedMethods]
    has a first element ([allowedMethods_first] below), so the [None] branch
    is never taken. *)
Definition resetMethod (field : Field) (method : Method) : Method :=
  match JsArray.get (allowedMethods field) 0 with
  | Some t => initMethods t
  | None => method
  end.

Fixpoint queryReducer (query : Query) (action : QueryAction) {struct action}
  : Completion Query :=
  match action with
  | UpdateType queryType =>
      Return (mkQuery queryType (predicates query))
  | InsertFirst predicateType =>
      let toInsert :=
        if decide (predicateType = FieldT) then initFieldPredicate
        else initQueryPredicate in
      Return (mkQuery (query_type query) (toInsert :: predicates query))
  | InsertAfterNth predType i =>
      let preds := predicates query in
      match JsArray.get preds i with
      | None => Throw TypeError
      | Some cursor =>
          let toInsert :=
            if decide (predicate_type cursor = predType) then cursor
            else if decide (predType = FieldT) then initFieldPredicate
            else initQueryPredicate in
          let lhs := JsArray.slice preds 0 (i + 1) in
          let rhs := JsArray.sliceFrom preds (i + 1) in
          Return (mkQuery (query_type query) (lhs ++ toInsert :: rhs))
      end
  | RemoveNth i =>
      let preds := predicates query in
      let lhs := JsArray.slice preds 0 i in
      let rhs := JsArray.sliceFrom preds (i + 1) in
      Return (mkQuery (query_type query) (lhs ++ rhs))
  | UpdateNthQuery index action' =>
      let preds := predicates query in
      match JsArray.get preds index with
      | None => Throw TypeError
      | Some (FieldPredicate _ _) => Throw (notAQuery index)
      | Some (QueryPredicate nested) =>
          nested' ← queryReducer nested action';
          Return (mkQuery (query_type query)
                    (JsArray.set preds index (QueryPredicate nested')))
      end
  | UpdateNthField index field =>
      let preds := predicates query in
      match JsArray.get preds index with
      | None => Throw TypeError
      | Some (QueryPredicate _) => Throw (notAField index)
      | Some (FieldPredicate _ method) =>
          let method' :=
            if negb (JsArray.includes (allowedMethods field) (method_type method))
            then resetMethod field method
            else method in
          Return (mkQuery (query_type query)
                    (JsArray.set preds index (FieldPredicate field method')))
      end
  | UpdateNthMethod index action' =>
      let preds := predicates query in
      match JsArray.get preds index with
      | None => Throw TypeError
      | Some (QueryPredicate _) => Throw (notAField index)
      | Some (FieldPredicate field method) =>
          let method' := methodReducer method action' in
          if negb (JsArray.includes (allowedMethods field) (method_type method'))
          then Return query
          else
            Return (mkQuery (query_type query)
                      (JsArray.set preds index (FieldPredicate field method')))
      end
  end.

(** [useReducer(queryReducer, initQuery)]: the state after a sequence of
    dispatched actions, which is lost as soon as one of them throws. *)
Fixpoint dispatchAll (query : Query) (actions : list QueryAction)
  : Completion Query :=
  match actions with
  | [] => Return query
  | action :: rest =>
      query' ← queryReducer query action;
      dispatchAll query' rest
  end.

(** ** The field/method compatibility of a tree *)

Definition compatible (field : Field) (method : Method) : bool :=
  JsArray.includes (allowedMethods field) (method_type method).

Fixpoint compatibleQuery (q : Query) : bool :=
  match q with
  | mkQuery _ ps => forallb compatiblePredicate ps
  end
with compatiblePredicate (p : Predicate) : bool :=
  match p with
  | FieldPredicate field method => compatible field method
  | QueryPredicate q => compatibleQuery q
  end.

(** [p] occurs in the tree below [q], at any depth. *)
Inductive InTree (p : Predicate) : Query → Prop :=
| InTree_here q : p ∈ predicates q → InTree p q
| InTree_nested q nested :
    QueryPredicate nested ∈ predicates q → InTree p nested → InTree p q.

(** ** Dispatching into a nested query *)

(** [React.Dispatch<QueryAction>] and [React.Dispatch<MethodAction>]: [T] is
    what dispatching amounts to for the caller. *)
Definition QueryDispatch (T : Type) : Type := QueryAction → T.
Definition MethodDispatch (T : Type) : Type := MethodAction → T.

Definition queryDispatchNth {T} (dispatch : QueryDispatch T) (index : Z)
  : QueryDispatch T :=
  λ action, dispatch (UpdateNthQuery index action).

(** ** The components

    A component is embedded as the function from its props to the element
    it renders. An element records the controls the user can operate: the
    value each control shows, the options a select offers and the handler
    each control calls. [useCallback] and [useMemo] return the function or
    value they are given, so a handler is the function in the source; text
    nodes and option labels are left out. *)

Set Warnings "-register-all".

Section elements.
Context {T : Type}.

(** What [Field] renders. *)
Record FieldControls := {
  fieldSelect_value : Field;
  fieldSelect_options : list Field;
  fieldSelect_onChange : Field → T;
  methodValueInput_value : string;
  methodValueInput_onChange : string → T;
  methodSelect_value : MethodType;
  methodSelect_options : list MethodType;
  methodSelect_onChange : MethodType → T;
  insertAfterButton_onClick : T;
  removeButton_onClick : T;
}.

(** What [Predicate] renders: the controls of a field, or the controls of a
    query around the elements of its predicates. In a query, the handler of
    the type select receives the string [e.target.value] and may dispatch
    nothing; the remove button is absent at the root. *)
Inductive Element :=
| FieldElement (controls : FieldControls)
| QueryElement
    (typeSelect_value : QueryType)
    (typeSelect_options : list string)
    (typeSelect_onChange : string → option T)
    (insertFieldFirstButton_onClick : T)
    (insertQueryFirstButton_onClick : T)
    (removeButton : option T)
    (items : list Element).

(** The component [Field]. *)
Definition renderField (field : Field) (method : Method)
    (insertAfter remove : T) (updateField : Field → T)
    (methodDispatch : MethodDispatch T) : Element :=
  FieldElement {|
    fieldSelect_value := field;
    fieldSelect_options := [Title; Body];
    fieldSelect_onChange := λ value, updateField value;
    methodValueInput_value := value method;
    methodValueInput_onChange :=
      λ value, methodDispatch (UpdateTextValue value);
    methodSelect_value := method_type method;
    methodSelect_options :=
      (λ methodType,
         match methodType with
         | Equal => Equal
         | Match => Match
         end) <$> allowedMethods field;
    methodSelect_onChange :=
      λ value, methodDispatch (MethodUpdateType value);
    insertAfterButton_onClick := insertAfter;
    removeButton_onClick := remove;
  |}.

(** The component [FieldPredicate]. *)
Definition renderFieldPredicate (field : Field) (method : Method) (index : Z)
    (dispatch : QueryDispatch T) : Element :=
  renderField field method
    (dispatch (InsertAfterNth FieldT index))
    (dispatch (RemoveNth index))
    (λ field', dispatch (UpdateNthField index field'))
    (λ action, dispatch (UpdateNthMethod index action)).

(** [onTypeChange] of the component [Query]. *)
Definition onTypeChange (dispatch : QueryDispatch T) (value : string)
  : option T :=
  if decide (value = "all") then Some (dispatch (UpdateType All))
  else if decide (value = "any") then Some (dispatch (UpdateType Any))
  else None.

(** The components [Query], [Predicate] and, in the second branch of
    [renderPredicate], [QueryPredicate]. The index that [map] hands to each
    predicate is its position in [query.predicates]. *)
Fixpoint renderQuery (query : Query) (dispatch : QueryDispatch T)
    (remove : option T) {struct query} : Element :=
  match query with
  | mkQuery type preds =>
      QueryElement type ["all"; "any"] (onTypeChange dispatch)
        (dispatch (InsertFirst FieldT))
        (dispatch (InsertFirst QueryT))
        remove
        (JsArray.map (λ pred i, renderPredicate pred i dispatch) preds)
  end
with renderPredicate (predicate : Predicate) (index : Z)
    (dispatch : QueryDispatch T) {struct predicate} : Element :=
  match predicate with
  | FieldPredicate field method =>
      renderFieldPredicate field method index dispatch
  | QueryPredicate query =>
      renderQuery query (queryDispatchNth dispatch index)
        (Some (dispatch (RemoveNth index)))
  end.

(** What operating one control of an element dispatches: choosing an
    option of a select, typing a text into the input, clicking a button. *)
Inductive Fires : Element → T → Prop :=
| Fires_fieldSelect c value :
    value ∈ fieldSelect_options c →
    Fires (FieldElement c) (fieldSelect_onChange c value)
| Fires_methodValueInput c text :
    Fires (FieldElement c) (methodValueInput_onChange c text)
| Fires_methodSelect c value :
    value ∈ methodSelect_options c →
    Fires (FieldElement c) (methodSelect_onChange c value)
| Fires_insertAfterButton c :
    Fires (FieldElement c) (insertAfterButton_onClick c)
| Fires_removeButton c :
    Fires (FieldElement c) (removeButton_onClick c)
| Fires_typeSelect v opts onChange insF insQ rm items value t :
    value ∈ opts → onChange value = Some t →
    Fires (QueryElement v opts onChange insF insQ rm items) t
| Fires_insertFieldFirstButton v opts onChange insF insQ rm items :
    Fires (QueryElement v opts onChange insF insQ rm items) insF
| Fires_insertQueryFirstButton v opts onChange insF insQ rm items :
    Fires (QueryElement v opts onChange insF insQ rm items) insQ
| Fires_queryRemoveButton v opts onChange insF insQ rm items t :
    rm = Some t →
    Fires (QueryElement v opts onChange insF insQ rm items) t
| Fires_item v opts onChange insF insQ rm items item t :
    item ∈ items → Fires item t →
    Fires (QueryElement v opts onChange insF insQ rm items) t.
End elements.
Global Arguments FieldControls : clear implicits.
Global Arguments Element : clear implicits.

(** The component [App]: the root query rendered with the dispatch of
    [useReducer], taken here as the action it is given. *)
Definition renderApp (query : Query) : Element QueryAction :=
  renderQuery query (λ action, action) None.

(** A run of the reducer in which every action is one that [allowed]
    admits in the state it is dispatched to, and none throws. *)
Inductive run (allowed : Query → QueryAction → Prop)
  : Query → list QueryAction → Query → Prop :=
| run_done query : run allowed query [] query
| run_step query action query1 actions query' :
    allowed query action →
    queryReducer query action = Return query1 →
    run allowed query1 actions query' →
    run allowed query (action :: actions) query'.

(** A session with the editor: each action is dispatched by a control of
    the state as rendered at that moment. *)
Definition session : Query → list QueryAction → Query → Prop :=
  run (λ query action, Fires (renderApp query) action).

(** ** Actions and what they address *)

(** [action] addresses, at every level it descends to, an index that holds a
    predicate of the type the action is for. *)
Inductive WellAddressed : Query → QueryAction → Prop :=
| WellAddressed_updateType q t : WellAddressed q (UpdateType t)
| WellAddressed_insertFirst q k : WellAddressed q (InsertFirst k)
| WellAddressed_removeNth q i : WellAddressed q (RemoveNth i)
| WellAddressed_insertAfterNth q k i p :
    JsArray.get (predicates q) i = Some p →
    WellAddressed q (InsertAfterNth k i)
| WellAddressed_updateNthQuery q i nested a :
    JsArray.get (predicates q) i = Some (QueryPredicate nested) →
    WellAddressed nested a →
    WellAddressed q (UpdateNthQuery i a)
| WellAddressed_updateNthField q i f0 m f :
    JsArray.get (predicates q) i = Some (FieldPredicate f0 m) →
    WellAddressed q (UpdateNthField i f)
| WellAddressed_updateNthMethod q i f m ma :
    JsArray.get (predicates q) i = Some (FieldPredicate f m) →
    WellAddressed q (UpdateNthMethod i ma).

(** The actions the controls of a rendered query stand for. *)
Inductive Offered : Query → QueryAction → Prop :=
| Offered_updateType q t : Offered q (UpdateType t)
| Offered_insertFirst q k : Offered q (InsertFirst k)
| Offered_removeNth q i p :
    predicates q !! i = Some p → Offered q (RemoveNth (Z.of_nat i))
| Offered_insertAfterNth q i f m :
    predicates q !! i = Some (FieldPredicate f m) →
    Offered q (InsertAfterNth FieldT (Z.of_nat i))
| Offered_updateNthField q i f0 m f :
    predicates q !! i = Some (FieldPredicate f0 m) →
    Offered q (UpdateNthField (Z.of_nat i) f)
| Offered_updateTextValue q i f m text :
    predicates q !! i = Some (FieldPredicate f m) →
    Offered q (UpdateNthMethod (Z.of_nat i) (UpdateTextValue text))
| Offered_updateMethodType q i f m t :
    predicates q !! i = Some (FieldPredicate f m) →
    t ∈ allowedMethods f →
    Offered q (UpdateNthMethod (Z.of_nat i) (MethodUpdateType t))
| Offered_updateNthQuery q i nested a :
    predicates q !! i = Some (QueryPredicate nested) →
    Offered nested a →
    Offered q (UpdateNthQuery (Z.of_nat i) a).

(** ** Paths into the tree *)

(** The query reached from [query] by following the query predicates at the
    indices of [path], outermost first. *)
Fixpoint subqueryAt (query : Query) (path : list Z) : option Query :=
  match path with
  | [] => Some query
  | index :: path' =>
      match JsArray.get (predicates query) index with
      | Some (QueryPredicate nested) => subqueryAt nested path'
      | _ => None
      end
  end.

(** [query] with the query at [path] replaced by [sub]; [query] itself when
    [path] does not lead to a query. *)
Fixpoint replaceAt (query : Query) (path : list Z) (sub : Query) : Query :=
  match path with
  | [] => sub
  | index :: path' =>
      match JsArray.get (predicates query) index with
      | Some (QueryPredicate nested) =>
          mkQuery (query_type query)
            (JsArray.set (predicates query) index
               (QueryPredicate (replaceAt nested path' sub)))
      | _ => query
      end
  end.

(** The dispatch a query at [path] is rendered with. *)
Definition dispatchAt {T} (dispatch : QueryDispatch T) (path : list Z)
  : QueryDispatch T :=
  foldl queryDispatchNth dispatch path.

(** ** Building a query *)

(** Actions that turn a query without predicates into [q]: set the type,
    then, from the last predicate to the first, insert an initial predicate
    at the front and fill it in at index 0. *)
Fixpoint buildQuery (q : Query) : list QueryAction :=
  match q with
  | mkQuery type preds =>
      UpdateType type ::
      (fix buildPredicates (ps : list Predicate) : list QueryAction :=
         match ps with
         | [] => []
         | p :: ps' =>
             buildPredicates ps' ++
             InsertFirst (predicate_type p) :: fillPredicate p
         end) preds
  end
with fillPredicate (p : Predicate) : list QueryAction :=
  match p with
  | FieldPredicate field method =>
      [UpdateNthField 0 field;
       UpdateNthMethod 0 (MethodUpdateType (method_type method));
       UpdateNthMethod 0 (UpdateTextValue (value method))]
  | QueryPredicate nested => UpdateNthQuery 0 <$> buildQuery nested
  end.

(** ** Arrays: reading, slicing and assigning *)

Module JsArrayFacts.
Import JsArray.
Section facts.
Context {A : Type}.
Implicit Types (arr : list A) (i : Z) (x : A).

Lemma get_Some arr i x :
  get arr i = Some x ↔ 0 ≤ i ∧ arr !! Z.to_nat i = Some x.
Proof.
  unfold get. destruct (decide (0 ≤ i)) as [Hi|Hi].
  - split; [by intros -> | by intros [_ ->]].
  - split; [done | by intros [? _]].
Qed.

Lemma get_None arr i :
  get arr i = None ↔ ¬ (0 ≤ i < Z.of_nat (length arr)).
Proof.
  unfold get. case_decide as Hi.
  - rewrite lookup_ge_None. lia.
  - split; [lia | done].
Qed.

Lemma get_in_range arr i :
  0 ≤ i < Z.of_nat (length arr) → is_Some (get arr i).
Proof.
  intros Hi. destruct (get arr i) eqn:E; [by eexists|].
  apply get_None in E. lia.
Qed.

Lemma relative_nonneg len i :
  0 ≤ len → 0 ≤ i → relative len i = Z.min i len.
Proof. intros. unfold relative. case_decide; lia. Qed.

(** [arr.slice(0, i)] is the prefix of length [i], the whole array when [i]
    is past its end. *)
Lemma slice_prefix arr i :
  0 ≤ i → slice arr 0 i = take (Z.to_nat i) arr.
Proof.
  intros Hi. unfold slice.
  rewrite !relative_nonneg by lia.
  replace (Z.to_nat (0 `min` Z.of_nat (length arr))) with 0%nat by lia.
  rewrite drop_0.
  destruct (decide (i ≤ Z.of_nat (length arr))).
  - f_equal. lia.
  - rewrite !take_ge by lia. done.
Qed.

(** [arr.slice(i)] is what is left after the first [i] elements. *)
Lemma sliceFrom_suffix arr i :
  0 ≤ i → sliceFrom arr i = drop (Z.to_nat i) arr.
Proof.
  intros Hi. unfold sliceFrom, slice.
  rewrite !relative_nonneg by lia.
  destruct (decide (i ≤ Z.of_nat (length arr))).
  - rewrite take_ge; [f_equal; lia|]. rewrite length_drop. lia.
  - rewrite !drop_ge by lia. by rewrite take_nil.
Qed.

Lemma slice_prefix_ge arr i :
  Z.of_nat (length arr) ≤ i → slice arr 0 i = arr.
Proof. intros Hi. rewrite slice_prefix by lia. apply take_ge. lia. Qed.

Lemma sliceFrom_ge arr i :
  Z.of_nat (length arr) ≤ i → sliceFrom arr i = [].
Proof. intros Hi. rewrite sliceFrom_suffix by lia. apply drop_ge. lia. Qed.

Lemma includes_true `{EqDecision A} arr x : includes arr x = true ↔ x ∈ arr.
Proof. unfold includes. apply bool_decide_eq_true. Qed.

Lemma includes_false `{EqDecision A} arr x : includes arr x = false ↔ x ∉ arr.
Proof. unfold includes. apply bool_decide_eq_false. Qed.
End facts.
End JsArrayFacts.

Import JsArrayFacts.

(** ** The constant tables *)

(** Every field allows at least one method: [allowedMethods[field][0]] is
    defined. *)
Lemma allowedMethods_first field :
  is_Some (JsArray.get (allowedMethods field) 0).
Proof. destruct field; by eexists. Qed.

Lemma initMethods_type t : method_type (initMethods t) = t.
Proof. by destruct t. Qed.

Lemma initMethods_value t : value (initMethods t) = "".
Proof. by destruct t. Qed.

(** The method a field switch falls back to is allowed for the new field. *)
Lemma resetMethod_compatible field method :
  compatible field (resetMethod field method) = true.
Proof. by destruct field. Qed.

Lemma resetMethod_first field method :
  ∃ t, head (allowedMethods field) = Some t ∧
       resetMethod field method = initMethods t.
Proof. destruct field; by eexists. Qed.

(** ** The method reducer *)

(** C9. [methodReducer] is a total function of the method and the action
    alone (no field is consulted). On [updateType] it returns the initial
    method of the requested type, whose value is empty; on [updateTextValue]
    it returns the method with the same type and the new value, whatever the
    type of the method. *)
Theorem methodReducer_spec (m : Method) :
  (∀ k, methodReducer m (MethodUpdateType k) = initMethods k ∧
        initMethods k = {| method_type := k; value := "" |}) ∧
  (∀ text, methodReducer m (UpdateTextValue text) =
           {| method_type := method_type m; value := text |}).
Proof.
  split.
  - intros k. split; [done | by destruct k].
  - intros text. simpl. by destruct (method_type m).
Qed.

(** ** Removal *)

Lemma removeNth_returns q i :
  queryReducer q (RemoveNth i) =
  Return (mkQuery (query_type q)
            (JsArray.slice (predicates q) 0 i ++
             JsArray.sliceFrom (predicates q) (i + 1))).
Proof. done. Qed.

Lemma removeNth_past_end q i :
  Z.of_nat (length (predicates q)) ≤ i → queryReducer q (RemoveNth i) = Return q.
Proof.
  intros Hi. rewrite removeNth_returns.
  rewrite slice_prefix_ge, sliceFrom_ge, app_nil_r by lia.
  by destruct q.
Qed.

(** C10. Removing at an index at or past the end of the predicate list
    does not throw and returns the query as it was. *)
Theorem removeNth_out_of_range_noop (q : Query) (i : Z) :
  Z.of_nat (length (predicates q)) ≤ i →
  queryReducer q (RemoveNth i) = Return q.
Proof. apply removeNth_past_end. Qed.

Lemma removeNth_out_of_range_noop_witness :
  let q := mkQuery Any [initFieldPredicate; initQueryPredicate] in
  queryReducer q (RemoveNth 2) = Return q.
Proof. apply removeNth_out_of_range_noop. simpl. lia. Defined.

(** C7. Inserting a predicate of either type at the front and then
    removing index 0 gives back the query one started from. *)
Theorem insertFirst_removeNth_inverse (q : Query) (k : PredicateType) :
  ∃ q1, queryReducer q (InsertFirst k) = Return q1 ∧
        queryReducer q1 (RemoveNth 0) = Return q ∧
        (q1 ← queryReducer q (InsertFirst k); queryReducer q1 (RemoveNth 0))
        = Return q.
Proof.
  eexists. split; [done|].
  assert (∀ p, queryReducer (mkQuery (query_type q) (p :: predicates q))
                 (RemoveNth 0) = Return q) as Hrm.
  { intros p. rewrite removeNth_returns.
    rewrite slice_prefix, sliceFrom_suffix by lia.
    destruct q as [t ps]. by rewrite take_0. }
  split; [apply Hrm|]. cbn. apply Hrm.
Qed.

(** ** Indexed actions: what is read at the index *)

Section cursor.
Variables (q : Query) (i : Z).

Lemma cursor_defined p :
  0 ≤ i → predicates q !! Z.to_nat i = Some p →
  JsArray.get (predicates q) i = Some p.
Proof. intros. by apply get_Some. Qed.

Lemma cursor_undefined :
  ¬ (0 ≤ i < Z.of_nat (length (predicates q))) →
  JsArray.get (predicates q) i = None.
Proof. apply get_None. Qed.

Lemma insertAfterNth_undefined k :
  JsArray.get (predicates q) i = None →
  queryReducer q (InsertAfterNth k i) = Throw TypeError.
Proof. simpl. by intros ->. Qed.

Lemma updateNthQuery_undefined a :
  JsArray.get (predicates q) i = None →
  queryReducer q (UpdateNthQuery i a) = Throw TypeError.
Proof. simpl. by intros ->. Qed.

Lemma updateNthField_undefined f :
  JsArray.get (predicates q) i = None →
  queryReducer q (UpdateNthField i f) = Throw TypeError.
Proof. simpl. by intros ->. Qed.

Lemma updateNthMethod_undefined ma :
  JsArray.get (predicates q) i = None →
  queryReducer q (UpdateNthMethod i ma) = Throw TypeError.
Proof. simpl. by intros ->. Qed.

Lemma updateNthQuery_on_field f m a :
  JsArray.get (predicates q) i = Some (FieldPredicate f m) →
  queryReducer q (UpdateNthQuery i a) = Throw (notAQuery i).
Proof. simpl. by intros ->. Qed.

Lemma updateNthQuery_on_query nested a :
  JsArray.get (predicates q) i = Some (QueryPredicate nested) →
  queryReducer q (UpdateNthQuery i a) =
  nested' ← queryReducer nested a;
  Return (mkQuery (query_type q)
            (JsArray.set (predicates q) i (QueryPredicate nested'))).
Proof. simpl. by intros ->. Qed.

Lemma updateNthField_on_query nested f :
  JsArray.get (predicates q) i = Some (QueryPredicate nested) →
  queryReducer q (UpdateNthField i f) = Throw (notAField i).
Proof. simpl. by intros ->. Qed.

Lemma updateNthMethod_on_query nested ma :
  JsArray.get (predicates q) i = Some (QueryPredicate nested) →
  queryReducer q (UpdateNthMethod i ma) = Throw (notAField i).
Proof. simpl. by intros ->. Qed.

Lemma updateNthField_on_field f0 m f :
  JsArray.get (predicates q) i = Some (FieldPredicate f0 m) →
  queryReducer q (UpdateNthField i f) =
  Return (mkQuery (query_type q)
            (JsArray.set (predicates q) i
               (FieldPredicate f
                  (if compatible f m then m else resetMethod f m)))).
Proof.
  simpl. intros ->. unfold compatible.
  by destruct (JsArray.includes _ _).
Qed.

Lemma updateNthMethod_on_field f m ma :
  JsArray.get (predicates q) i = Some (FieldPredicate f m) →
  queryReducer q (UpdateNthMethod i ma) =
  if compatible f (methodReducer m ma)
  then Return (mkQuery (query_type q)
                 (JsArray.set (predicates q) i
                    (FieldPredicate f (methodReducer m ma))))
  else Return q.
Proof.
  simpl. intros ->. unfold compatible.
  by destruct (JsArray.includes _ _).
Qed.
End cursor.

(** ** Failures *)

(** C2, as the reducer has it. With an index outside [0, length), the four
    actions that read [preds[index].type] throw the runtime's [TypeError],
    which is none of the errors the reducer throws for a predicate of the
    wrong type. [removeNth] reads no element: it never throws, and at or
    past the end it returns the query as it was. *)
Theorem index_out_of_range (q : Query) (i : Z) :
  ¬ (0 ≤ i < Z.of_nat (length (predicates q))) →
  (∀ k, queryReducer q (InsertAfterNth k i) = Throw TypeError) ∧
  (∀ a, queryReducer q (UpdateNthQuery i a) = Throw TypeError) ∧
  (∀ f, queryReducer q (UpdateNthField i f) = Throw TypeError) ∧
  (∀ ma, queryReducer q (UpdateNthMethod i ma) = Throw TypeError) ∧
  (∀ j, TypeError ≠ notAQuery j ∧ TypeError ≠ notAField j) ∧
  (∃ q', queryReducer q (RemoveNth i) = Return q') ∧
  (Z.of_nat (length (predicates q)) ≤ i →
   queryReducer q (RemoveNth i) = Return q).
Proof.
  intros Hi. apply cursor_undefined in Hi.
  split_and!.
  - intros. by apply insertAfterNth_undefined.
  - intros. by apply updateNthQuery_undefined.
  - intros. by apply updateNthField_undefined.
  - intros. by apply updateNthMethod_undefined.
  - done.
  - eexists. apply removeNth_returns.
  - apply removeNth_past_end.
Qed.

Lemma index_out_of_range_witness :
  let q := mkQuery All [initFieldPredicate; initQueryPredicate] in
  (∀ k, queryReducer q (InsertAfterNth k 5) = Throw TypeError) ∧
  (∀ a, queryReducer q (UpdateNthQuery 5 a) = Throw TypeError) ∧
  (∀ f, queryReducer q (UpdateNthField 5 f) = Throw TypeError) ∧
  (∀ ma, queryReducer q (UpdateNthMethod 5 ma) = Throw TypeError) ∧
  (∀ j, TypeError ≠ notAQuery j ∧ TypeError ≠ notAField j) ∧
  (∃ q', queryReducer q (RemoveNth 5) = Return q') ∧
  (Z.of_nat (length (predicates q)) ≤ 5 →
   queryReducer q (RemoveNth 5) = Return q).
Proof. intros q. apply (index_out_of_range q 5). simpl. lia. Defined.

(** C2 as the spec words it fails: [removeNth] with index 5 on a query of
    two predicates throws nothing and returns the query. *)
Lemma removeNth_5_of_2_does_not_fail :
  queryReducer (mkQuery All [initFieldPredicate; initQueryPredicate])
    (RemoveNth 5)
  = Return (mkQuery All [initFieldPredicate; initQueryPredicate]) ∧
  ¬ (∃ e, queryReducer (mkQuery All [initFieldPredicate; initQueryPredicate])
            (RemoveNth 5) = Throw e).
Proof. split; [reflexivity | by intros [e ?]]. Qed.

(** C3. At an index that holds a predicate: [updateNthQuery] on a field
    predicate throws the reducer's "is not a query" error; [updateNthField]
    and [updateNthMethod] on a query predicate throw its "is not a field
    type" error. Neither is the [TypeError] of a missing element. *)
Theorem predicate_type_mismatch (q : Query) (i : Z) (p : Predicate) :
  0 ≤ i → predicates q !! Z.to_nat i = Some p →
  (predicate_type p = FieldT →
   ∀ a, queryReducer q (UpdateNthQuery i a) = Throw (notAQuery i)) ∧
  (predicate_type p = QueryT →
   (∀ f, queryReducer q (UpdateNthField i f) = Throw (notAField i)) ∧
   (∀ ma, queryReducer q (UpdateNthMethod i ma) = Throw (notAField i))) ∧
  notAQuery i ≠ TypeError ∧ notAField i ≠ TypeError.
Proof.
  intros Hi Hp. pose proof (cursor_defined q i p Hi Hp) as Hget.
  split_and!; try done.
  - destruct p; [|done]. intros _ a. by eapply updateNthQuery_on_field.
  - destruct p; [done|]. intros _. split; intros.
    + by eapply updateNthField_on_query.
    + by eapply updateNthMethod_on_query.
Qed.

Lemma predicate_type_mismatch_witness :
  queryReducer (mkQuery All [initQueryPredicate; initFieldPredicate])
    (UpdateNthQuery 1 (InsertFirst FieldT))
  = Throw (Error "1th predicate is not a query") ∧
  queryReducer (mkQuery All [initQueryPredicate; initFieldPredicate])
    (UpdateNthMethod 0 (UpdateTextValue "abc"))
  = Throw (Error "0th predicate is not a field type").
Proof.
  split.
  - refine (proj1 (predicate_type_mismatch
             (mkQuery All [initQueryPredicate; initFieldPredicate]) 1
             initFieldPredicate _ _) _ _); [lia | reflexivity | reflexivity].
  - refine (proj2 (proj1 (proj2 (predicate_type_mismatch
             (mkQuery All [initQueryPredicate; initFieldPredicate]) 0
             initQueryPredicate _ _)) _) _); [lia | reflexivity | reflexivity].
Defined.

(** ** Insertion after an index *)

Lemma insertAfterNth_returns q i k cursor :
  0 ≤ i → predicates q !! Z.to_nat i = Some cursor →
  queryReducer q (InsertAfterNth k i) =
  Return (mkQuery (query_type q)
            (take (S (Z.to_nat i)) (predicates q) ++
             (if decide (predicate_type cursor = k) then cursor
              else if decide (k = FieldT) then initFieldPredicate
              else initQueryPredicate)
             :: drop (S (Z.to_nat i)) (predicates q))).
Proof.
  intros Hi Hc. simpl. rewrite (cursor_defined q i cursor Hi Hc).
  rewrite slice_prefix, sliceFrom_suffix by lia.
  by replace (Z.to_nat (i + 1)) with (S (Z.to_nat i)) by lia.
Qed.

(** C4. At an index that holds a predicate, [insertAfterNth] returns the
    query with one more predicate: the predicates up to and including the
    index stay where they are, the new one comes right after the index, and
    the predicates behind the index move one place up. The new predicate is
    the predicate at the index itself when that one has the requested type,
    and the initial predicate of the requested type otherwise. *)
Theorem insertAfterNth_spec (q : Query) (i : Z) (k : PredicateType)
    (cursor : Predicate) :
  0 ≤ i → predicates q !! Z.to_nat i = Some cursor →
  ∃ q' inserted,
    queryReducer q (InsertAfterNth k i) = Return q' ∧
    query_type q' = query_type q ∧
    length (predicates q') = S (length (predicates q)) ∧
    (∀ j, (j ≤ Z.to_nat i)%nat → predicates q' !! j = predicates q !! j) ∧
    predicates q' !! S (Z.to_nat i) = Some inserted ∧
    (∀ j, (Z.to_nat i < j)%nat → predicates q' !! S j = predicates q !! j) ∧
    (predicate_type cursor = k → inserted = cursor) ∧
    (predicate_type cursor ≠ k →
     (k = FieldT → inserted = initFieldPredicate) ∧
     (k = QueryT → inserted = initQueryPredicate)).
Proof.
  intros Hi Hc. pose proof (lookup_lt_Some _ _ _ Hc) as Hlen.
  do 2 eexists. split; [by apply insertAfterNth_returns|].
  set (n := Z.to_nat i) in *. simpl.
  assert (length (take (S n) (predicates q)) = S n) as Htake
    by (rewrite length_take; lia).
  split_and!.
  - done.
  - rewrite length_app, Htake. simpl. rewrite length_drop. lia.
  - intros j Hj. rewrite lookup_app_l by lia. apply lookup_take_lt. lia.
  - rewrite lookup_app_r by lia. by rewrite Htake, Nat.sub_diag.
  - intros j Hj. rewrite lookup_app_r by lia. rewrite Htake.
    replace (S j - S n)%nat with (S (j - S n)) by lia. simpl.
    rewrite lookup_drop. f_equal. lia.
  - intros Hk. by rewrite decide_True.
  - intros Hk. rewrite decide_False by done. split; intros ->; done.
Qed.

Lemma insertAfterNth_spec_witness :
  queryReducer
    (mkQuery All [FieldPredicate Body {| method_type := Match; value := "abc" |}])
    (InsertAfterNth FieldT 0)
  = Return
      (mkQuery All
         [FieldPredicate Body {| method_type := Match; value := "abc" |};
          FieldPredicate Body {| method_type := Match; value := "abc" |}]).
Proof.
  destruct (insertAfterNth_spec
    (mkQuery All [FieldPredicate Body {| method_type := Match; value := "abc" |}])
    0 FieldT (FieldPredicate Body {| method_type := Match; value := "abc" |}))
    as (q' & inserted & Hq & _); [lia | reflexivity |].
  rewrite Hq. vm_compute in Hq. by injection Hq as <-.
Defined.

(** ** Changing the field of a predicate *)

(** C5. On a field predicate, [updateNthField] puts at the index a field
    predicate with the new field; its method is the old one when the new
    field allows the old method's type, and the initial method of the first
    type the new field allows otherwise. Switching a body predicate that
    matches "x" to the title gives a title predicate that equals the empty
    string. *)
Theorem updateNthField_spec (q : Query) (i : Z) (f0 f : Field) (m : Method) :
  0 ≤ i → predicates q !! Z.to_nat i = Some (FieldPredicate f0 m) →
  ∃ m',
    queryReducer q (UpdateNthField i f) =
      Return (mkQuery (query_type q)
                (<[Z.to_nat i := FieldPredicate f m']> (predicates q))) ∧
    (method_type m ∈ allowedMethods f → m' = m) ∧
    (method_type m ∉ allowedMethods f →
     ∃ t, head (allowedMethods f) = Some t ∧ m' = initMethods t) ∧
    (f0 = Body → m = {| method_type := Match; value := "x" |} → f = Title →
     FieldPredicate f m' =
     FieldPredicate Title {| method_type := Equal; value := "" |}).
Proof.
  intros Hi Hp. eexists. split.
  { apply (updateNthField_on_field q i f0 m f). by apply cursor_defined. }
  unfold compatible. split_and!.
  - intros Hin. apply includes_true in Hin. by rewrite Hin.
  - intros Hin. apply includes_false in Hin. rewrite Hin.
    apply resetMethod_first.
  - by intros -> -> ->.
Qed.

Lemma updateNthField_spec_witness :
  queryReducer
    (mkQuery Any [initQueryPredicate;
                  FieldPredicate Body {| method_type := Match; value := "x" |}])
    (UpdateNthField 1 Title)
  = Return
      (mkQuery Any [initQueryPredicate;
                    FieldPredicate Title {| method_type := Equal; value := "" |}]).
Proof.
  destruct (updateNthField_spec
    (mkQuery Any [initQueryPredicate;
                  FieldPredicate Body {| method_type := Match; value := "x" |}])
    1 Body Title {| method_type := Match; value := "x" |})
    as (m' & Hq & _ & _ & Hm'); [lia | reflexivity |].
  rewrite Hq. by rewrite (Hm' eq_refl eq_refl eq_refl).
Defined.

(** ** Changing the method of a predicate *)

(** C6. On a field predicate, [updateNthMethod] runs [methodReducer] on
    the predicate's method. When the predicate's field does not allow the
    type of the outcome, the query is returned as it was; otherwise the
    outcome replaces the method and the field stays. Asking for [Match] on a
    title predicate that equals "x" returns the query as it was. *)
Theorem updateNthMethod_spec (q : Query) (i : Z) (f : Field) (m : Method)
    (ma : MethodAction) :
  0 ≤ i → predicates q !! Z.to_nat i = Some (FieldPredicate f m) →
  let candidate := methodReducer m ma in
  (method_type candidate ∉ allowedMethods f →
   queryReducer q (UpdateNthMethod i ma) = Return q) ∧
  (method_type candidate ∈ allowedMethods f →
   queryReducer q (UpdateNthMethod i ma) =
     Return (mkQuery (query_type q)
               (<[Z.to_nat i := FieldPredicate f candidate]> (predicates q)))) ∧
  (f = Title → m = {| method_type := Equal; value := "x" |} →
   ma = MethodUpdateType Match →
   queryReducer q (UpdateNthMethod i ma) = Return q).
Proof.
  intros Hi Hp candidate.
  pose proof (updateNthMethod_on_field q i f m ma
                (cursor_defined q i _ Hi Hp)) as Hq.
  fold candidate in Hq. unfold compatible in Hq.
  split_and!.
  - intros Hin. apply includes_false in Hin. by rewrite Hin in Hq.
  - intros Hin. apply includes_true in Hin. by rewrite Hin in Hq.
  - intros -> -> ->. by rewrite Hq.
Qed.

Lemma updateNthMethod_spec_witness :
  queryReducer
    (mkQuery All [FieldPredicate Title {| method_type := Equal; value := "x" |}])
    (UpdateNthMethod 0 (MethodUpdateType Match))
  = Return
      (mkQuery All [FieldPredicate Title {| method_type := Equal; value := "x" |}])
  ∧
  queryReducer
    (mkQuery All [FieldPredicate Title {| method_type := Equal; value := "x" |}])
    (UpdateNthMethod 0 (UpdateTextValue "y"))
  = Return
      (mkQuery All [FieldPredicate Title {| method_type := Equal; value := "y" |}]).
Proof.
  destruct (updateNthMethod_spec
    (mkQuery All [FieldPredicate Title {| method_type := Equal; value := "x" |}])
    0 Title {| method_type := Equal; value := "x" |} (MethodUpdateType Match))
    as (_ & _ & Hnoop); [lia | reflexivity |].
  destruct (updateNthMethod_spec
    (mkQuery All [FieldPredicate Title {| method_type := Equal; value := "x" |}])
    0 Title {| method_type := Equal; value := "x" |} (UpdateTextValue "y"))
    as (_ & Hset & _); [lia | reflexivity |].
  split; [by apply Hnoop | apply Hset; vm_compute; by left].
Defined.

(** ** Addressing a nested query *)

(** C8. When the root's predicate 0 is a query predicate whose query holds
    one field predicate, [updateNthQuery] at 0 carrying [updateNthField] at
    0 with the body field returns a root with the same type, as many
    predicates, the same predicate at every index but 0, and at 0 the nested
    query with its type kept and its one predicate now on the body field,
    its method untouched. *)
Theorem nested_updateNthField_frame (root nested : Query) (f : Field)
    (m : Method) :
  predicates root !! 0%nat = Some (QueryPredicate nested) →
  predicates nested = [FieldPredicate f m] →
  ∃ root',
    queryReducer root (UpdateNthQuery 0 (UpdateNthField 0 Body)) = Return root' ∧
    query_type root' = query_type root ∧
    length (predicates root') = length (predicates root) ∧
    (∀ j, j ≠ 0%nat → predicates root' !! j = predicates root !! j) ∧
    predicates root' !! 0%nat =
      Some (QueryPredicate
              (mkQuery (query_type nested) [FieldPredicate Body m])).
Proof.
  intros Hroot Hnested.
  assert (queryReducer nested (UpdateNthField 0 Body) =
          Return (mkQuery (query_type nested) [FieldPredicate Body m])) as Hin.
  { rewrite (updateNthField_on_field nested 0 f m Body).
    - rewrite Hnested. unfold JsArray.set. simpl.
      by destruct m as [[] v].
    - apply cursor_defined; [lia|]. by rewrite Hnested. }
  eexists. split.
  { rewrite (updateNthQuery_on_query root 0 nested)
      by (apply cursor_defined; [lia | done]).
    rewrite Hin. reflexivity. }
  unfold JsArray.set. simpl. split_and!.
  - done.
  - apply length_insert.
  - intros j Hj. by apply list_lookup_insert_ne.
  - apply list_lookup_insert_eq. by eapply lookup_lt_Some.
Qed.

Lemma nested_updateNthField_frame_witness :
  queryReducer
    (mkQuery Any [QueryPredicate (mkQuery All [initFieldPredicate]);
                  initFieldPredicate])
    (UpdateNthQuery 0 (UpdateNthField 0 Body))
  = Return
      (mkQuery Any
         [QueryPredicate
            (mkQuery All
               [FieldPredicate Body {| method_type := Equal; value := "" |}]);
          initFieldPredicate]).
Proof.
  destruct (nested_updateNthField_frame
    (mkQuery Any [QueryPredicate (mkQuery All [initFieldPredicate]);
                  initFieldPredicate])
    (mkQuery All [initFieldPredicate]) Title initPredicateMethod)
    as (root' & Hq & _); [reflexivity | reflexivity |].
  rewrite Hq. vm_compute in Hq. by injection Hq as <-.
Defined.

(** ** The compatibility invariant *)

Abbreviation compatiblePredicates :=
  (Forall (λ p, compatiblePredicate p = true)).

Lemma compatibleQuery_predicates q :
  compatibleQuery q = true ↔ compatiblePredicates (predicates q).
Proof.
  destruct q as [t ps]. simpl.
  induction ps as [|p ps IH]; simpl.
  - split; [by constructor | done].
  - rewrite andb_true_iff, Forall_cons, IH. done.
Qed.

Lemma slice_compatible ps s e :
  compatiblePredicates ps → compatiblePredicates (JsArray.slice ps s e).
Proof. intros. by apply Forall_take, Forall_drop. Qed.

Lemma sliceFrom_compatible ps s :
  compatiblePredicates ps → compatiblePredicates (JsArray.sliceFrom ps s).
Proof. apply slice_compatible. Qed.

Lemma set_compatible ps i p :
  compatiblePredicates ps → compatiblePredicate p = true →
  compatiblePredicates (JsArray.set ps i p).
Proof. intros. by apply Forall_insert. Qed.

Lemma get_compatible ps i p :
  compatiblePredicates ps → JsArray.get ps i = Some p →
  compatiblePredicate p = true.
Proof.
  intros Hps [_ Hp]%get_Some.
  by apply (Forall_lookup_1 _ _ _ _ Hps Hp).
Qed.

Lemma initFieldPredicate_compatible : compatiblePredicate initFieldPredicate = true.
Proof. done. Qed.

Lemma initQueryPredicate_compatible : compatiblePredicate initQueryPredicate = true.
Proof. done. Qed.

Lemma initQuery_compatible : compatibleQuery initQuery = true.
Proof. done. Qed.

Create HintDb compat.
#[local] Hint Resolve slice_compatible sliceFrom_compatible set_compatible
  initFieldPredicate_compatible initQueryPredicate_compatible
  resetMethod_compatible : compat.

(** One step of the reducer keeps every method allowed for its field. *)
Lemma queryReducer_compatible action :
  ∀ q q', compatibleQuery q = true → queryReducer q action = Return q' →
          compatibleQuery q' = true.
Proof.
  induction action as [qt | k | k i | i | i action IH | i f | i ma];
    intros q q' Hq%compatibleQuery_predicates Hstep; simpl in Hstep.
  - injection Hstep as <-. by apply compatibleQuery_predicates.
  - injection Hstep as <-. apply compatibleQuery_predicates. simpl.
    constructor; [by case_decide | done].
  - destruct (JsArray.get (predicates q) i) as [cursor|] eqn:Hget; [|done].
    injection Hstep as <-. apply compatibleQuery_predicates. simpl.
    apply Forall_app. split; [auto with compat|].
    constructor; [|auto with compat].
    repeat case_decide; eauto using get_compatible.
  - injection Hstep as <-. apply compatibleQuery_predicates. simpl.
    apply Forall_app. split; auto with compat.
  - destruct (JsArray.get (predicates q) i) as [[|nested]|] eqn:Hget;
      [done| |done].
    destruct (queryReducer nested action) as [nested'|] eqn:Hnested; [|done].
    injection Hstep as <-. apply compatibleQuery_predicates. simpl.
    apply set_compatible; [done|]. simpl.
    apply (IH nested); [|done].
    by apply (get_compatible _ _ _ Hq Hget).
  - destruct (JsArray.get (predicates q) i) as [[f0 m|]|] eqn:Hget; try done.
    injection Hstep as <-. apply compatibleQuery_predicates. simpl.
    apply set_compatible; [done|]. simpl. fold (compatible f m).
    destruct (compatible f m) eqn:Hm; simpl; auto with compat.
  - destruct (JsArray.get (predicates q) i) as [[f m|]|] eqn:Hget; try done.
    fold (compatible f (methodReducer m ma)) in Hstep.
    destruct (compatible f (methodReducer m ma)) eqn:Hm; simpl in Hstep;
      injection Hstep as <-.
    + apply compatibleQuery_predicates. simpl. by apply set_compatible.
    + by apply compatibleQuery_predicates.
Qed.

Lemma dispatchAll_compatible actions :
  ∀ q q', compatibleQuery q = true → dispatchAll q actions = Return q' →
          compatibleQuery q' = true.
Proof.
  induction actions as [|action actions IH]; intros q q' Hq Hrun; simpl in Hrun.
  - by injection Hrun as <-.
  - destruct (queryReducer q action) as [q1|] eqn:Hstep; [|done].
    eauto using queryReducer_compatible.
Qed.

(** A compatible query has only compatible predicates below it. *)
Lemma compatibleQuery_InTree q p :
  InTree p q → compatibleQuery q = true → compatiblePredicate p = true.
Proof.
  induction 1 as [q Hin | q nested Hin _ IH];
    intros Hq%compatibleQuery_predicates.
  - by apply (proj1 (Forall_forall _ _) Hq).
  - apply IH. by apply (proj1 (Forall_forall _ _) Hq (QueryPredicate nested)).
Qed.

(** C1. Start from [initQuery] and dispatch any list of actions. If none
    of them throws, every field predicate of the resulting tree, at
    whatever depth, has a method whose type is allowed for its field. *)
Theorem invariant_preservation (actions : list QueryAction) (q : Query) :
  dispatchAll initQuery actions = Return q →
  ∀ f m, InTree (FieldPredicate f m) q → method_type m ∈ allowedMethods f.
Proof.
  intros Hrun f m Hin. apply includes_true.
  apply (compatibleQuery_InTree q (FieldPredicate f m) Hin).
  by apply (dispatchAll_compatible actions initQuery).
Qed.

Lemma invariant_preservation_witness :
  dispatchAll initQuery
    [InsertFirst FieldT; UpdateNthField 0 Body;
     UpdateNthMethod 0 (MethodUpdateType Match); InsertFirst QueryT;
     UpdateNthQuery 0 (InsertFirst FieldT); InsertAfterNth FieldT 1;
     UpdateNthField 2 Title; RemoveNth (-1)]
  = Return
      (mkQuery All
         [QueryPredicate (mkQuery All [initFieldPredicate]);
          FieldPredicate Body {| method_type := Match; value := "" |};
          QueryPredicate (mkQuery All [initFieldPredicate]);
          FieldPredicate Body {| method_type := Match; value := "" |};
          initFieldPredicate])
  ∧ Match ∈ allowedMethods Body.
Proof.
  split; [reflexivity|].
  refine (invariant_preservation _ _ (eq_refl : dispatchAll initQuery
    [InsertFirst FieldT; UpdateNthField 0 Body;
     UpdateNthMethod 0 (MethodUpdateType Match); InsertFirst QueryT;
     UpdateNthQuery 0 (InsertFirst FieldT); InsertAfterNth FieldT 1;
     UpdateNthField 2 Title; RemoveNth (-1)] = Return _)
    Body {| method_type := Match; value := "" |} _).
  apply InTree_here. simpl. apply list_elem_of_In. simpl. tauto.
Defined.


(** * Further properties of the reducer *)

(** ** Slices counted from the end *)

Section negative_slices.
Context {A : Type}.
Implicit Types (arr : list A) (i : Z).

Lemma slice_prefix_negative arr i :
  i < 0 →
  JsArray.slice arr 0 i = take (Z.to_nat (Z.of_nat (length arr) + i)) arr.
Proof.
  intros Hi. unfold JsArray.slice, JsArray.relative.
  rewrite (decide_False (P := 0 < 0)), (decide_True (P := i < 0)) by lia.
  replace (Z.to_nat (0 `min` Z.of_nat (length arr))) with 0%nat by lia.
  rewrite drop_0. f_equal. lia.
Qed.

Lemma sliceFrom_negative arr i :
  i < 0 →
  JsArray.sliceFrom arr i = drop (Z.to_nat (Z.of_nat (length arr) + i)) arr.
Proof.
  intros Hi. unfold JsArray.sliceFrom, JsArray.slice, JsArray.relative.
  rewrite (decide_True (P := i < 0)) by lia.
  rewrite (decide_False (P := Z.of_nat (length arr) < 0)) by lia.
  rewrite take_ge; [f_equal; lia|]. rewrite length_drop. lia.
Qed.
End negative_slices.

(** ** Removal at an index *)

(** X1. At an index that holds a predicate, [removeNth] returns the query
    without that predicate: the type is kept, there is one predicate less,
    the predicates before the index stay and those behind it move one place
    down. *)
Theorem removeNth_in_range (q : Query) (i : Z) :
  0 ≤ i < Z.of_nat (length (predicates q)) →
  ∃ q',
    queryReducer q (RemoveNth i) = Return q' ∧
    query_type q' = query_type q ∧
    S (length (predicates q')) = length (predicates q) ∧
    (∀ j, (j < Z.to_nat i)%nat → predicates q' !! j = predicates q !! j) ∧
    (∀ j, (Z.to_nat i ≤ j)%nat → predicates q' !! j = predicates q !! S j).
Proof.
  intros Hi. eexists. split; [apply removeNth_returns|].
  rewrite slice_prefix, sliceFrom_suffix by lia.
  replace (Z.to_nat (i + 1)) with (S (Z.to_nat i)) by lia.
  rewrite <- delete_take_drop. simpl. split_and!.
  - done.
  - rewrite length_delete by (apply lookup_lt_is_Some; lia). lia.
  - intros j Hj. by apply list_lookup_delete_lt.
  - intros j Hj. by apply list_lookup_delete_ge.
Qed.

Lemma removeNth_in_range_witness :
  queryReducer
    (mkQuery Any [initFieldPredicate; initQueryPredicate; initFieldPredicate])
    (RemoveNth 1)
  = Return (mkQuery Any [initFieldPredicate; initFieldPredicate]).
Proof.
  destruct (removeNth_in_range
    (mkQuery Any [initFieldPredicate; initQueryPredicate; initFieldPredicate])
    1) as (q' & Hq & _); [simpl; lia|].
  rewrite Hq. vm_compute in Hq. by injection Hq as <-.
Defined.

(** X2. [removeNth] with a negative index counts from the end, as [slice]
    does, and never throws. Below minus the length it returns the query as
    it was; from minus the length to -2 it removes the predicate at length
    plus index; at -1 it returns all predicates but the last followed by all
    predicates, so a query of [n > 0] predicates comes back with [2n - 1]. *)
Theorem removeNth_negative_index (q : Query) (i : Z) :
  i < 0 →
  let n := length (predicates q) in
  (i < - Z.of_nat n → queryReducer q (RemoveNth i) = Return q) ∧
  (- Z.of_nat n ≤ i ≤ -2 →
   queryReducer q (RemoveNth i) =
   Return (mkQuery (query_type q)
             (delete (Z.to_nat (Z.of_nat n + i)) (predicates q)))) ∧
  (i = -1 →
   queryReducer q (RemoveNth i) =
   Return (mkQuery (query_type q)
             (take (n - 1) (predicates q) ++ predicates q))).
Proof.
  intros Hi n. rewrite removeNth_returns, slice_prefix_negative by done.
  fold n. split_and!.
  - intros Hlow.
    replace (Z.to_nat (Z.of_nat n + i)) with 0%nat by lia. rewrite take_0.
    destruct (decide (i + 1 < 0)).
    + rewrite sliceFrom_negative by lia. fold n.
      replace (Z.to_nat (Z.of_nat n + (i + 1))) with 0%nat by lia.
      rewrite drop_0. by destruct q.
    + rewrite sliceFrom_suffix by lia.
      replace (Z.to_nat (i + 1)) with 0%nat by lia.
      rewrite drop_0. by destruct q.
  - intros Hmid. rewrite sliceFrom_negative by lia. fold n.
    rewrite delete_take_drop. do 4 f_equal. lia.
  - intros ->. rewrite sliceFrom_suffix by lia. simpl. rewrite drop_0.
    do 4 f_equal. lia.
Qed.

Lemma removeNth_negative_index_witness :
  queryReducer (mkQuery All [initFieldPredicate; initQueryPredicate])
    (RemoveNth (-1))
  = Return (mkQuery All
              [initFieldPredicate; initFieldPredicate; initQueryPredicate])
  ∧
  queryReducer (mkQuery All [initFieldPredicate; initQueryPredicate])
    (RemoveNth (-2))
  = Return (mkQuery All [initQueryPredicate]).
Proof.
  destruct (removeNth_negative_index
    (mkQuery All [initFieldPredicate; initQueryPredicate]) (-1))
    as (_ & _ & Hlast); [lia|].
  destruct (removeNth_negative_index
    (mkQuery All [initFieldPredicate; initQueryPredicate]) (-2))
    as (_ & Hmid & _); [lia|].
  split; [by rewrite Hlast | rewrite Hmid; [done | simpl; lia]].
Defined.

(** X3. Inserting after an index that holds a predicate and then removing
    at the next index gives back the query one started from. *)
Theorem insertAfterNth_removeNth_inverse (q : Query) (i : Z)
    (k : PredicateType) :
  0 ≤ i < Z.of_nat (length (predicates q)) →
  dispatchAll q [InsertAfterNth k i; RemoveNth (i + 1)] = Return q.
Proof.
  intros Hi.
  destruct (lookup_lt_is_Some_2 (predicates q) (Z.to_nat i)) as [cursor Hc];
    [lia|].
  cbn [dispatchAll]. rewrite (insertAfterNth_returns q i k cursor) by (lia || done).
  cbn [mbind Completion_bind dispatchAll]. rewrite removeNth_returns.
  cbn [predicates query_type].
  rewrite slice_prefix, sliceFrom_suffix by lia.
  replace (Z.to_nat (i + 1 + 1)) with (S (S (Z.to_nat i))) by lia.
  replace (Z.to_nat (i + 1)) with (S (Z.to_nat i)) by lia.
  set (n := Z.to_nat i).
  assert (length (take (S n) (predicates q)) = S n) as Htake
    by (rewrite length_take; lia).
  rewrite take_app_length' by done.
  rewrite cons_middle, (assoc_L (++)).
  rewrite drop_app_length' by (rewrite length_app, Htake; simpl; lia).
  rewrite take_drop. by destruct q.
Qed.

Lemma insertAfterNth_removeNth_inverse_witness :
  dispatchAll (mkQuery Any [initQueryPredicate; initFieldPredicate])
    [InsertAfterNth FieldT 0; RemoveNth (0 + 1)]
  = Return (mkQuery Any [initQueryPredicate; initFieldPredicate]).
Proof.
  apply (insertAfterNth_removeNth_inverse
           (mkQuery Any [initQueryPredicate; initFieldPredicate]) 0 FieldT).
  simpl. lia.
Defined.

(** ** Reading back what was assigned *)

Section assignments.
Context {A : Type}.
Implicit Types (arr : list A) (i j : Z) (x y : A).

Lemma get_set_eq arr i x y :
  JsArray.get arr i = Some y → JsArray.get (JsArray.set arr i x) i = Some x.
Proof.
  intros [Hi Hy]%get_Some. apply get_Some. split; [done|].
  apply list_lookup_insert_eq. by eapply lookup_lt_Some.
Qed.

Lemma get_set_ne arr i j x :
  0 ≤ i → i ≠ j → JsArray.get (JsArray.set arr i x) j = JsArray.get arr j.
Proof.
  intros Hi Hij. unfold JsArray.get, JsArray.set.
  case_decide; [|done]. apply list_lookup_insert_ne. lia.
Qed.

Lemma set_set arr i x y :
  JsArray.set (JsArray.set arr i y) i x = JsArray.set arr i x.
Proof. apply list_insert_insert_eq. Qed.

Lemma set_get arr i x :
  JsArray.get arr i = Some x → JsArray.set arr i x = arr.
Proof. intros [_ Hx]%get_Some. by apply list_insert_id. Qed.
End assignments.

(** ** The type of a query and the other actions *)

(** X4. Only [updateType] touches the type of the query it is applied to:
    dispatching [updateType] before any other action gives what dispatching
    it after that action gives, the thrown exception included. *)
Theorem updateType_commutes (q : Query) (t : QueryType) (a : QueryAction) :
  (∀ t', a ≠ UpdateType t') →
  dispatchAll q [UpdateType t; a] = dispatchAll q [a; UpdateType t].
Proof.
  intros Ha. destruct q as [t0 ps].
  destruct a as [t' | k | k i | i | i a | i f | i ma]; cbn.
  - by destruct (Ha t').
  - done.
  - by destruct (JsArray.get ps i).
  - done.
  - destruct (JsArray.get ps i) as [[f m|nested]|]; try done.
    cbn. by destruct (queryReducer nested a).
  - by destruct (JsArray.get ps i) as [[f0 m|nested]|].
  - destruct (JsArray.get ps i) as [[f m|nested]|]; try done.
    by destruct (negb _).
Qed.

Lemma updateType_commutes_witness :
  dispatchAll (mkQuery All [initFieldPredicate])
    [UpdateType Any; UpdateNthField 0 Body]
  = dispatchAll (mkQuery All [initFieldPredicate])
      [UpdateNthField 0 Body; UpdateType Any].
Proof. by apply updateType_commutes. Defined.

(** ** Dispatching the same kind of edit twice *)

(** X5. [updateNthField] is idempotent: dispatching it twice with the same
    index and field gives what dispatching it once gives, whether that is a
    query or an exception. *)
Theorem updateNthField_idempotent (q : Query) (i : Z) (f : Field) :
  dispatchAll q [UpdateNthField i f; UpdateNthField i f]
  = dispatchAll q [UpdateNthField i f].
Proof.
  cbn [dispatchAll].
  destruct (JsArray.get (predicates q) i) as [[f0 m|nested]|] eqn:Hget.
  - rewrite (updateNthField_on_field q i f0 m f Hget).
    cbn [mbind Completion_bind].
    set (m' := if compatible f m then m else resetMethod f m).
    assert (compatible f m' = true) as Hm'.
    { subst m'. destruct (compatible f m) eqn:Hm;
        [done | apply resetMethod_compatible]. }
    rewrite (updateNthField_on_field _ i f m' f)
      by (cbn [predicates]; by eapply get_set_eq).
    cbn [predicates query_type]. by rewrite Hm', set_set.
  - by rewrite (updateNthField_on_query q i nested f Hget).
  - by rewrite (updateNthField_undefined q i f Hget).
Qed.

(** X6. Of two [updateTextValue] dispatched to the method at one index the
    later wins: dispatching both gives what dispatching the later alone
    gives, whether that is a query or an exception. *)
Theorem updateTextValue_last_wins (q : Query) (i : Z) (v1 v2 : string) :
  dispatchAll q [UpdateNthMethod i (UpdateTextValue v1);
                 UpdateNthMethod i (UpdateTextValue v2)]
  = dispatchAll q [UpdateNthMethod i (UpdateTextValue v2)].
Proof.
  cbn [dispatchAll].
  destruct (JsArray.get (predicates q) i) as [[f m|nested]|] eqn:Hget.
  - rewrite !(updateNthMethod_on_field q i f m _ Hget).
    assert (∀ m0 v, compatible f (methodReducer m0 (UpdateTextValue v))
                    = compatible f m0) as Hc.
    { intros m0 v. unfold compatible. simpl. by destruct (method_type m0). }
    assert (methodReducer (methodReducer m (UpdateTextValue v1))
              (UpdateTextValue v2)
            = methodReducer m (UpdateTextValue v2)) as Hred.
    { simpl. by destruct (method_type m). }
    rewrite !Hc. destruct (compatible f m) eqn:Hm; cbn [mbind Completion_bind].
    + rewrite (updateNthMethod_on_field _ i f
                 (methodReducer m (UpdateTextValue v1)) (UpdateTextValue v2))
        by (cbn [predicates]; by eapply get_set_eq).
      rewrite !Hc, Hm, Hred. cbn [predicates query_type]. by rewrite set_set.
    + by rewrite (updateNthMethod_on_field q i f m _ Hget), Hc, Hm.
  - by rewrite !(updateNthMethod_on_query q i nested _ Hget).
  - by rewrite !(updateNthMethod_undefined q i _ Hget).
Qed.

(** ** When the reducer throws *)

Lemma wellAddressed_returns q a :
  WellAddressed q a → ∃ q', queryReducer q a = Return q'.
Proof.
  induction 1 as [q t|q k|q i|q k i p Hget|q i nested a Hget _ [n' IH]
                  |q i f0 m f Hget|q i f m ma Hget].
  - by eexists.
  - by eexists.
  - by eexists.
  - simpl. rewrite Hget. by eexists.
  - rewrite (updateNthQuery_on_query q i nested a Hget), IH. by eexists.
  - rewrite (updateNthField_on_field q i f0 m f Hget). by eexists.
  - rewrite (updateNthMethod_on_field q i f m ma Hget).
    destruct (compatible _ _); by eexists.
Qed.

Lemma returns_wellAddressed a :
  ∀ q q', queryReducer q a = Return q' → WellAddressed q a.
Proof.
  induction a as [t|k|k i|i|i a IH|i f|i ma]; intros q q' Hq;
    simpl in Hq; try by constructor.
  - destruct (JsArray.get (predicates q) i) as [p|] eqn:Hget; [|done].
    by econstructor.
  - destruct (JsArray.get (predicates q) i) as [[f m|nested]|] eqn:Hget;
      try done.
    destruct (queryReducer nested a) as [n'|] eqn:Hn; [|done].
    econstructor; [done|]. by eapply IH.
  - destruct (JsArray.get (predicates q) i) as [[f0 m|nested]|] eqn:Hget;
      try done.
    by econstructor.
  - destruct (JsArray.get (predicates q) i) as [[f m|nested]|] eqn:Hget;
      try done.
    by econstructor.
Qed.

(** X7. [queryReducer] returns exactly on the actions that, at every level
    they descend to, address an index holding a predicate of the type they
    are for ([removeNth], [insertFirst] and [updateType] address nothing);
    on every other action it throws. *)
Theorem queryReducer_returns_iff (q : Query) (a : QueryAction) :
  ((∃ q', queryReducer q a = Return q') ↔ WellAddressed q a) ∧
  ((∃ e, queryReducer q a = Throw e) ↔ ¬ WellAddressed q a).
Proof.
  split; split.
  - intros [q' Hq]. by eapply returns_wellAddressed.
  - apply wellAddressed_returns.
  - intros [e He] [q' Hq]%wellAddressed_returns. congruence.
  - intros Hna. destruct (queryReducer q a) as [q'|e] eqn:Hq; [|by eexists].
    destruct Hna. by eapply returns_wellAddressed.
Qed.

(** ** Dispatching along a path *)

Lemma dispatchAt_wraps {T} (dispatch : QueryDispatch T) path a :
  dispatchAt dispatch path a = dispatch (foldr UpdateNthQuery a path).
Proof.
  revert dispatch. induction path as [|i path IH]; intros dispatch; [done|].
  unfold dispatchAt in *. simpl. by rewrite IH.
Qed.

Lemma subqueryAt_replaceAt path :
  ∀ root sub sub',
    subqueryAt root path = Some sub →
    subqueryAt (replaceAt root path sub') path = Some sub'.
Proof.
  induction path as [|i path IH]; intros root sub sub' Hsub; [done|].
  simpl in *.
  destruct (JsArray.get (predicates root) i) as [[f m|nested]|] eqn:Hget;
    try done.
  simpl. erewrite get_set_eq by done. by eapply IH.
Qed.

Lemma dispatchAt_queryReducer root path sub a :
  subqueryAt root path = Some sub →
  dispatchAt (queryReducer root) path a =
    (sub' ← queryReducer sub a; Return (replaceAt root path sub')).
Proof.
  rewrite dispatchAt_wraps.
  revert root. induction path as [|i path IH]; intros root Hsub.
  - injection Hsub as ->. simpl. by destruct (queryReducer sub a).
  - simpl in Hsub.
    destruct (JsArray.get (predicates root) i) as [[f m|nested]|] eqn:Hget;
      try done.
    cbn [foldr]. rewrite (updateNthQuery_on_query root i nested _ Hget).
    rewrite (IH nested Hsub). cbn [replaceAt]. rewrite Hget.
    by destruct (queryReducer sub a).
Qed.

(** X8. The dispatch built by [queryDispatchNth] along a path of indices
    that leads to a query runs the reducer on that query: it throws what the
    reducer throws there, and otherwise returns the root with the query at
    the path replaced by what the reducer returns, which is then the query
    found at the path. *)
Theorem dispatchAt_reduces (root sub : Query) (path : list Z)
    (a : QueryAction) :
  subqueryAt root path = Some sub →
  dispatchAt (queryReducer root) path a =
    (sub' ← queryReducer sub a; Return (replaceAt root path sub')) ∧
  (∀ sub', queryReducer sub a = Return sub' →
           subqueryAt (replaceAt root path sub') path = Some sub').
Proof.
  intros Hsub. split.
  - by apply dispatchAt_queryReducer.
  - intros. by eapply subqueryAt_replaceAt.
Qed.

Lemma dispatchAt_reduces_witness :
  dispatchAt
    (queryReducer
       (mkQuery All [initFieldPredicate;
                     QueryPredicate (mkQuery Any [initQueryPredicate])]))
    [1; 0] (InsertFirst FieldT)
  = Return
      (mkQuery All
         [initFieldPredicate;
          QueryPredicate
            (mkQuery Any
               [QueryPredicate (mkQuery All [initFieldPredicate])])]).
Proof.
  destruct (dispatchAt_reduces
    (mkQuery All [initFieldPredicate;
                  QueryPredicate (mkQuery Any [initQueryPredicate])])
    initQuery [1; 0] (InsertFirst FieldT)) as [Hrun _]; [reflexivity|].
  by rewrite Hrun.
Defined.

(** X9. Along a path that does not lead to a query (an index without
    predicate, or one holding a field predicate) the dispatch built by
    [queryDispatchNth] throws, whatever the action. *)
Theorem dispatchAt_off_path (root : Query) (path : list Z) (a : QueryAction) :
  subqueryAt root path = None →
  ∃ e, dispatchAt (queryReducer root) path a = Throw e.
Proof.
  rewrite dispatchAt_wraps.
  revert root. induction path as [|i path IH]; intros root Hsub; [done|].
  simpl in Hsub. cbn [foldr].
  destruct (JsArray.get (predicates root) i) as [[f m|nested]|] eqn:Hget.
  - rewrite (updateNthQuery_on_field root i f m _ Hget). by eexists.
  - rewrite (updateNthQuery_on_query root i nested _ Hget).
    destruct (IH nested Hsub) as [e ->]. by eexists.
  - rewrite (updateNthQuery_undefined root i _ Hget). by eexists.
Qed.

Lemma dispatchAt_off_path_witness :
  ∃ e, dispatchAt
         (queryReducer (mkQuery All [initQueryPredicate; initFieldPredicate]))
         [0; 3] (UpdateType Any) = Throw e.
Proof. by apply dispatchAt_off_path. Defined.

(** ** Induction on queries *)

Section Query_induction.
Variables (P : Query → Prop) (Pp : Predicate → Prop).
Hypothesis Hquery : ∀ t ps, Forall Pp ps → P (mkQuery t ps).
Hypothesis Hfield : ∀ f m, Pp (FieldPredicate f m).
Hypothesis Hnested : ∀ q, P q → Pp (QueryPredicate q).

Fixpoint Query_nested_ind (q : Query) : P q :=
  match q with
  | mkQuery t ps =>
      Hquery t ps
        ((fix all (l : list Predicate) : Forall Pp l :=
            match l with
            | [] => List.Forall_nil Pp
            | p :: l' =>
                List.Forall_cons Pp p l' (Predicate_nested_ind p) (all l')
            end) ps)
  end
with Predicate_nested_ind (p : Predicate) : Pp p :=
  match p with
  | FieldPredicate f m => Hfield f m
  | QueryPredicate q => Hnested q (Query_nested_ind q)
  end.
End Query_induction.

(** ** What the rendered controls dispatch *)

Lemma map_imap {A B} (f : A → Z → B) (arr : list A) :
  JsArray.map f arr = imap (λ i x, f x (Z.of_nat i)) arr.
Proof.
  unfold JsArray.map.
  enough (∀ k,
    (fix from (i : nat) (rest : list A) : list B :=
       match rest with
       | [] => []
       | x :: rest' => f x (Z.of_nat i) :: from (S i) rest'
       end) k arr = imap (λ i x, f x (Z.of_nat (k + i))) arr) as H
    by apply (H 0%nat).
  induction arr as [|x arr IH]; intros k; [done|].
  simpl. f_equal; [do 2 f_equal; lia|].
  rewrite IH. apply imap_ext. intros i y _. simpl. do 2 f_equal. lia.
Qed.

Lemma elem_of_map {A B} (f : A → Z → B) (arr : list A) (y : B) :
  y ∈ JsArray.map f arr ↔ ∃ i x, arr !! i = Some x ∧ y = f x (Z.of_nat i).
Proof.
  rewrite map_imap, elem_of_lookup_imap.
  split; intros (i & x & H1 & H2); by exists i, x.
Qed.

Section fires.
Context {T : Type}.
Implicit Types (d : QueryDispatch T) (t : T).

Lemma methodSelect_options_allowed f m ia rm uf md c :
  renderField (T := T) f m ia rm uf md = FieldElement c →
  methodSelect_options c = allowedMethods f.
Proof. intros [= <-]. by destruct f. Qed.

Lemma Fires_renderFieldPredicate f m i d t :
  Fires (renderFieldPredicate f m i d) t ↔
    (∃ f', t = d (UpdateNthField i f')) ∨
    (∃ text, t = d (UpdateNthMethod i (UpdateTextValue text))) ∨
    (∃ mt, mt ∈ allowedMethods f ∧
           t = d (UpdateNthMethod i (MethodUpdateType mt))) ∨
    t = d (InsertAfterNth FieldT i) ∨
    t = d (RemoveNth i).
Proof.
  unfold renderFieldPredicate, renderField. split.
  - inversion 1 as [c v Hv|c text|c v Hv|c|c| | | | |]; subst; simpl in *.
    + left. by eexists.
    + right; left. by eexists.
    + right; right; left. exists v. split; [|done]. by destruct f.
    + by right; right; right; left.
    + by right; right; right; right.
  - intros [[f' ->] | [[text ->] | [(mt & Hmt & ->) | [-> | ->]]]].
    + refine (Fires_fieldSelect _ f' _). simpl. destruct f'; repeat constructor.
    + exact (Fires_methodValueInput _ text).
    + refine (Fires_methodSelect _ mt _). simpl. by destruct f.
    + exact (Fires_insertAfterButton _).
    + exact (Fires_removeButton _).
Qed.

Lemma onTypeChange_Some d value t :
  onTypeChange d value = Some t →
  t = d (UpdateType All) ∨ t = d (UpdateType Any).
Proof.
  unfold onTypeChange. repeat case_decide; intros [= <-]; auto.
Qed.

Lemma Fires_renderQuery q d rm t :
  Fires (renderQuery q d rm) t ↔
    (∃ qt, t = d (UpdateType qt)) ∨
    (∃ k, t = d (InsertFirst k)) ∨
    rm = Some t ∨
    (∃ i p, predicates q !! i = Some p ∧
            Fires (renderPredicate p (Z.of_nat i) d) t).
Proof.
  destruct q as [qt ps]. cbn [renderQuery predicates]. split.
  - inversion 1 as [| | | | |? ? ? ? ? ? ? v t' Hv Ht| | |? ? ? ? ? ? ? t' Hrm
                    |? ? ? ? ? ? ? item t' Hitem Hfires]; subst.
    + left. apply onTypeChange_Some in Ht as [-> | ->]; by eexists.
    + right; left. by eexists.
    + right; left. by eexists.
    + by right; right; left.
    + right; right; right.
      apply elem_of_map in Hitem as (i & p & Hp & ->). eauto.
  - intros [[qt' ->] | [[k ->] | [-> | (i & p & Hp & Hfires)]]].
    + destruct qt'.
      * by apply (Fires_typeSelect _ _ _ _ _ _ _ "all"); [repeat constructor|].
      * by apply (Fires_typeSelect _ _ _ _ _ _ _ "any"); [repeat constructor|].
    + destruct k; [apply Fires_insertFieldFirstButton
                  |apply Fires_insertQueryFirstButton].
    + by apply Fires_queryRemoveButton.
    + eapply Fires_item; [|done]. apply elem_of_map. eauto.
Qed.

Lemma offered_fires q a :
  Offered q a → ∀ d rm, Fires (renderQuery q d rm) (d a).
Proof.
  induction 1 as [q qt|q k|q i p Hp|q i f m Hp|q i f0 m f Hp|q i f m text Hp
                  |q i f m mt Hp Hmt|q i nested a Hp _ IH]; intros d rm;
    apply Fires_renderQuery.
  - left. by eexists.
  - right; left. by eexists.
  - right; right; right. exists i, p. split; [done|]. destruct p as [f m|nested].
    + apply Fires_renderFieldPredicate. by right; right; right; right.
    + apply Fires_renderQuery. by right; right; left.
  - right; right; right. exists i, (FieldPredicate f m). split; [done|].
    apply Fires_renderFieldPredicate. by right; right; right; left.
  - right; right; right. exists i, (FieldPredicate f0 m). split; [done|].
    apply Fires_renderFieldPredicate. left. by eexists.
  - right; right; right. exists i, (FieldPredicate f m). split; [done|].
    apply Fires_renderFieldPredicate. right; left. by eexists.
  - right; right; right. exists i, (FieldPredicate f m). split; [done|].
    apply Fires_renderFieldPredicate. right; right; left. by eexists.
  - right; right; right. exists i, (QueryPredicate nested). split; [done|].
    apply (IH (queryDispatchNth d (Z.of_nat i))).
Qed.

Lemma fires_offered q :
  ∀ d rm t, Fires (renderQuery q d rm) t →
            rm = Some t ∨ ∃ a, Offered q a ∧ t = d a.
Proof.
  induction q as [qt ps IH | f m | nested IH]
    using Query_nested_ind
    with (Pp := λ p, ∀ i d t,
            Fires (renderPredicate p (Z.of_nat i) d) t →
            ∃ a, (∀ q, predicates q !! i = Some p → Offered q a) ∧ t = d a).
  - intros d rm t
      [[qt' ->] | [[k ->] | [-> | (i & p & Hp & Hfires)]]]%Fires_renderQuery.
    + right. eexists. split; [apply Offered_updateType | done].
    + right. eexists. split; [apply Offered_insertFirst | done].
    + by left.
    + right. cbn [predicates] in Hp.
      destruct (proj1 (Forall_lookup _ _) IH i p Hp i d t Hfires)
        as (a & Ha & ->).
      exists a. split; [by apply Ha | done].
  - intros i d t
      [[f' ->] | [[text ->] | [(mt & Hmt & ->) | [-> | ->]]]]
      %Fires_renderFieldPredicate;
      eexists; (split; [intros q Hp | done]).
    + by eapply Offered_updateNthField.
    + by eapply Offered_updateTextValue.
    + by eapply Offered_updateMethodType.
    + by eapply Offered_insertAfterNth.
    + by eapply Offered_removeNth.
  - intros i d t Hfires. cbn [renderPredicate] in Hfires.
    apply IH in Hfires as [[= <-] | (a & Ha & ->)].
    + eexists. split; [intros q Hp | done]. by eapply Offered_removeNth.
    + exists (UpdateNthQuery (Z.of_nat i) a). split; [|done].
      intros q Hp. by eapply Offered_updateNthQuery.
Qed.
End fires.

Lemma fires_renderApp q a : Fires (renderApp q) a ↔ Offered q a.
Proof.
  split.
  - intros [[=] | (a' & Ha & ->)]%fires_offered. done.
  - intros Ha. apply (offered_fires q a Ha (λ action, action) None).
Qed.

Lemma offered_wellAddressed q a : Offered q a → WellAddressed q a.
Proof.
  induction 1; econstructor; try done;
    apply get_Some; (split; [lia | by rewrite Nat2Z.id]).
Qed.

(** X10. Whatever control of the rendered editor the user operates, the
    action it dispatches does not make the reducer throw on the state the
    editor was rendered from. *)
Theorem editor_never_throws (q : Query) (a : QueryAction) :
  Fires (renderApp q) a → ∃ q', queryReducer q a = Return q'.
Proof.
  intros Ha%fires_renderApp. by apply wellAddressed_returns, offered_wellAddressed.
Qed.

Lemma editor_never_throws_witness :
  ∃ q', queryReducer (mkQuery All [initQueryPredicate; initFieldPredicate])
          (UpdateNthQuery 0 (InsertFirst FieldT)) = Return q'.
Proof.
  apply editor_never_throws. apply fires_renderApp.
  apply (Offered_updateNthQuery _ 0%nat initQuery); [reflexivity|].
  apply Offered_insertFirst.
Defined.

(** ** Runs of the reducer *)

Section runs.
Variable allowed : Query → QueryAction → Prop.

Lemma run_dispatchAll q acts q' :
  run allowed q acts q' → dispatchAll q acts = Return q'.
Proof.
  induction 1 as [q|q a q1 acts q' _ Hstep _ IH]; [done|].
  simpl. by rewrite Hstep.
Qed.

Lemma run_app q acts1 q1 acts2 q2 :
  run allowed q acts1 q1 → run allowed q1 acts2 q2 →
  run allowed q (acts1 ++ acts2) q2.
Proof.
  induction 1 as [q|q a q0 acts q1 Ha Hstep _ IH]; [done|].
  intros Hrest. simpl. eapply run_step; eauto.
Qed.

Lemma run_mono (allowed' : Query → QueryAction → Prop) q acts q' :
  (∀ q a, allowed q a → allowed' q a) →
  run allowed q acts q' → run allowed' q acts q'.
Proof.
  intros Hsub. induction 1; econstructor; eauto.
Qed.

Lemma run_compatible q acts q' :
  run allowed q acts q' → compatibleQuery q = true → compatibleQuery q' = true.
Proof.
  intros Hrun%run_dispatchAll Hq. by eapply dispatchAll_compatible.
Qed.
End runs.

(** A run inside the query predicate at index 0 is a run of the query
    around it. *)
Lemma run_offered_nested nested acts nested' :
  run Offered nested acts nested' →
  ∀ t ps,
    run Offered (mkQuery t (QueryPredicate nested :: ps))
      (UpdateNthQuery 0 <$> acts)
      (mkQuery t (QueryPredicate nested' :: ps)).
Proof.
  induction 1 as [q|q a q1 acts q' Ha Hstep _ IH]; intros t ps.
  - apply run_done.
  - cbn [fmap list_fmap]. eapply run_step; [| |apply IH].
    + by apply (Offered_updateNthQuery _ 0%nat q).
    + rewrite (updateNthQuery_on_query _ 0 q) by done. by rewrite Hstep.
Qed.

(** ** Which queries can be built *)

Lemma fillPredicate_run p :
  compatiblePredicate p = true →
  (∀ t0, ∀ q, predicate_type p = QueryT → p = QueryPredicate q →
              run Offered (mkQuery t0 []) (buildQuery q) q) →
  ∀ t ps,
    run Offered (mkQuery t ps)
      (InsertFirst (predicate_type p) :: fillPredicate p)
      (mkQuery t (p :: ps)).
Proof.
  intros Hp Hnested t ps. destruct p as [f [mt v]|nested].
  - assert (mt ∈ allowedMethods f) as Hmt by by apply includes_true.
    cbn [predicate_type fillPredicate method_type value].
    eapply run_step; [apply Offered_insertFirst | reflexivity |].
    eapply run_step;
      [by apply (Offered_updateNthField _ 0%nat initField initPredicateMethod)
      | reflexivity |].
    destruct f, mt; try (by vm_compute in Hp);
      (eapply run_step;
         [by eapply (Offered_updateMethodType _ 0%nat _ _ _) | reflexivity |]);
      (eapply run_step;
         [by eapply (Offered_updateTextValue _ 0%nat _ _ v) | reflexivity |]);
      apply run_done.
  - cbn [predicate_type fillPredicate].
    eapply run_step; [apply Offered_insertFirst | reflexivity |].
    apply run_offered_nested. by apply Hnested.
Qed.

Lemma buildQuery_run q :
  compatibleQuery q = true → ∀ t0, run Offered (mkQuery t0 []) (buildQuery q) q.
Proof.
  induction q as [t ps IH | f m | nested IH]
    using Query_nested_ind
    with (Pp := λ p, compatiblePredicate p = true →
            ∀ t ps, run Offered (mkQuery t ps)
                      (InsertFirst (predicate_type p) :: fillPredicate p)
                      (mkQuery t (p :: ps))).
  - intros Hps%compatibleQuery_predicates t0. cbn [predicates] in Hps.
    eapply run_step; [apply Offered_updateType | reflexivity |].
    cbn [predicates].
    induction ps as [|p ps IHps]; [apply run_done|].
    apply Forall_cons in IH as [Hp IH]. apply Forall_cons in Hps as [Hcp Hps].
    eapply run_app; [by apply IHps|]. by apply Hp.
  - intros Hc. apply fillPredicate_run; [done|]. by intros.
  - intros Hc. apply fillPredicate_run; [done|].
    intros t0 q _ [= <-]. by apply IH.
Qed.

(** The check [compatibleQuery] says that every field predicate of the
    tree has a method allowed for its field. *)
Lemma compatibleQuery_iff q :
  compatibleQuery q = true ↔
  ∀ f m, InTree (FieldPredicate f m) q → method_type m ∈ allowedMethods f.
Proof.
  split.
  { intros Hq f m Hin. apply includes_true.
    by apply (compatibleQuery_InTree q (FieldPredicate f m)). }
  induction q as [t ps IH | f m | nested IH]
    using Query_nested_ind
    with (Pp := λ p,
            match p with
            | FieldPredicate f m => method_type m ∈ allowedMethods f
            | QueryPredicate nested =>
                ∀ f m, InTree (FieldPredicate f m) nested →
                       method_type m ∈ allowedMethods f
            end → compatiblePredicate p = true).
  - intros Hin. apply compatibleQuery_predicates. cbn [predicates].
    apply Forall_forall. intros p Hp.
    apply (proj1 (Forall_forall _ _) IH p Hp).
    destruct p as [f m|nested].
    + apply Hin. by apply InTree_here.
    + intros f m Hnested. apply Hin. by eapply InTree_nested.
  - intros Hm. by apply includes_true.
  - done.
Qed.

(** X11. The states the reducer can reach from [initQuery] are exactly
    the queries in which every field predicate, at whatever depth, has a
    method allowed for its field; [buildQuery] gives actions that reach
    such a query. *)
Theorem reachable_iff_compatible (q : Query) :
  ((∃ actions, dispatchAll initQuery actions = Return q) ↔
   (∀ f m, InTree (FieldPredicate f m) q →
           method_type m ∈ allowedMethods f)) ∧
  ((∀ f m, InTree (FieldPredicate f m) q →
           method_type m ∈ allowedMethods f) →
   dispatchAll initQuery (buildQuery q) = Return q).
Proof.
  rewrite <- compatibleQuery_iff.
  assert (compatibleQuery q = true →
          dispatchAll initQuery (buildQuery q) = Return q) as Hbuild.
  { intros Hq. eapply run_dispatchAll. by apply buildQuery_run. }
  split; [split|done].
  - intros [actions Hrun]. by apply (dispatchAll_compatible actions initQuery).
  - intros Hq. eexists. by apply Hbuild.
Qed.

(** X12. The same holds of the editor: the states a session can reach
    from [initQuery], every action being dispatched by a control of the
    state rendered at that moment, are exactly the queries in which every
    field predicate has a method allowed for its field. *)
Theorem editor_reaches_exactly (q : Query) :
  (∃ actions, session initQuery actions q) ↔
  (∀ f m, InTree (FieldPredicate f m) q → method_type m ∈ allowedMethods f).
Proof.
  rewrite <- compatibleQuery_iff. split.
  - intros [actions Hrun]. by eapply run_compatible.
  - intros Hq. exists (buildQuery q). unfold session.
    eapply run_mono; [|by apply buildQuery_run].
    intros q0 a. apply fires_renderApp.
Qed.

(** ** Edits made through the editor take effect *)

Lemma subqueryAt_compatible path :
  ∀ root sub, subqueryAt root path = Some sub →
              compatibleQuery root = true → compatibleQuery sub = true.
Proof.
  induction path as [|i path IH]; intros root sub Hsub Hroot; simpl in Hsub.
  - by injection Hsub as <-.
  - destruct (JsArray.get (predicates root) i) as [[f m|nested]|] eqn:Hget;
      try done.
    apply (IH nested sub Hsub).
    apply compatibleQuery_predicates in Hroot.
    by apply (get_compatible _ _ _ Hroot Hget).
Qed.

(** X13. In a state reached from [initQuery], at whatever depth, an
    [updateNthMethod] aimed at a field predicate always replaces the method
    by what [methodReducer] returns, provided the type it asks for, if it
    asks for one, is allowed for the field (the method select offers no
    other): typed text is never dropped. *)
Theorem method_edit_takes_effect (actions : list QueryAction)
    (root sub : Query) (path : list Z) (i : Z) (f : Field) (m : Method)
    (ma : MethodAction) :
  dispatchAll initQuery actions = Return root →
  subqueryAt root path = Some sub →
  JsArray.get (predicates sub) i = Some (FieldPredicate f m) →
  (∀ t, ma = MethodUpdateType t → t ∈ allowedMethods f) →
  dispatchAt (queryReducer root) path (UpdateNthMethod i ma) =
  Return (replaceAt root path
            (mkQuery (query_type sub)
               (JsArray.set (predicates sub) i
                  (FieldPredicate f (methodReducer m ma))))).
Proof.
  intros Hrun Hsub Hget Hma.
  assert (compatible f m = true) as Hm.
  { apply (get_compatible (predicates sub) i (FieldPredicate f m)); [|done].
    apply compatibleQuery_predicates.
    apply (subqueryAt_compatible path root sub Hsub).
    by apply (dispatchAll_compatible actions initQuery). }
  assert (compatible f (methodReducer m ma) = true) as Hm'.
  { destruct ma as [t|text].
    - apply includes_true. simpl. rewrite initMethods_type. by apply Hma.
    - unfold compatible in *. simpl. by destruct (method_type m). }
  rewrite (dispatchAt_queryReducer root path sub _ Hsub).
  by rewrite (updateNthMethod_on_field sub i f m ma Hget), Hm'.
Qed.

Lemma method_edit_takes_effect_witness :
  dispatchAt
    (queryReducer
       (mkQuery All
          [QueryPredicate
             (mkQuery All
                [FieldPredicate Body {| method_type := Equal; value := "" |}])]))
    [0] (UpdateNthMethod 0 (MethodUpdateType Match))
  = Return
      (mkQuery All
         [QueryPredicate
            (mkQuery All
               [FieldPredicate Body {| method_type := Match; value := "" |}])]).
Proof.
  refine (method_edit_takes_effect
    [InsertFirst QueryT; UpdateNthQuery 0 (InsertFirst FieldT);
     UpdateNthQuery 0 (UpdateNthField 0 Body)]
    _
    (mkQuery All [FieldPredicate Body {| method_type := Equal; value := "" |}])
    [0] 0 Body {| method_type := Equal; value := "" |}
    (MethodUpdateType Match) _ _ _ _); [reflexivity..|].
  intros t [= <-]. vm_compute. right. left.
Defined.

(** ** The buttons of a row *)





